(** * Async modal host: a model of [AsyncModalProvider] and [useAsyncModal]

    The development embeds the two source files

    - [src/lib/context/ModalContext.tsx]  (the provider, [showModal],
      [handleClose] and the conditional rendering of the dialog), and
    - [src/lib/hooks/useAsyncModal.ts]    (the access hook),

    as state-passing functions over the mutable state one provider instance
    owns: the [renderModal] React state, the [promiseRef] mutable ref and the
    promises created by [showModal]. *)

From Stdlib Require Import ZArith.
From stdpp Require Import base option list strings.

(** ** JavaScript values

    Results handed to [onClose] and payloads passed as [data] are values of
    any kind: the result type [R] is the caller's.  Besides plain data
    (primitives, and records of data, which have no [then] method) a value
    can be a thenable:

    - [VPromise p], one of the promises of the heap below (what [showModal]
      returned, say);
    - [VThenable fate], a promise or thenable from elsewhere, given by what
      its [then] does with the callbacks it receives: it never calls them
      ([new Promise(() => {})]), it calls the first with a value
      ([Promise.resolve(v)]), or it calls the second with a reason
      ([Promise.reject(e)], or a [then] that throws). *)

Inductive Fate (A : Type) : Type :=
| Never
| Fulfils (a : A)
| Rejects (a : A).
Arguments Never {A}.
Arguments Fulfils {A} a.
Arguments Rejects {A} a.

#[warnings="-register-all"]
Inductive Value : Type :=
| VUndefined
| VNull
| VBool (b : bool)
| VNum (n : Z)
| VStr (s : string)
| VObj (fields : list (string * Value))
| VPromise (p : nat)
| VThenable (fate : Fate Value).

Definition thenable (v : Value) : bool :=
  match v with
  | VPromise _ | VThenable _ => true
  | _ => false
  end.

(** [ComponentType<...>]: a component is known by its identity only. *)
Definition ComponentType : Type := string.
Definition ReactElement : Type := string.

(** [interface ShowModalParams]: [dismissible?] and [data?] are optional;
    [None] is the absent (undefined) field. *)
Record ShowModalParams : Type := mkParams {
  modal : ComponentType;
  dismissible : option bool;
  data : option Value
}.

(** ** Promises

    A promise is an index into the list of promise cells.  The two functions
    [new Promise] hands to its executor are closures over the promise they
    settle. *)

Abbreviation PromiseId := nat (only parsing).

Inductive Callback : Type :=
| ResolveOf (p : PromiseId)
| RejectOf (p : PromiseId).

(** [interface PromiseRef] *)
Record PromiseRef : Type := mkRef {
  resolve : Callback;
  reject : Callback
}.

(** [Follows p]: the promise was resolved with the promise [p] and is locked
    to its fate (what an [async] function's promise is once the body returns a
    promise).  [Stalled]: the promise was resolved with a thenable that never
    calls back; it is locked and stays unsettled. *)
Inductive PromiseCell : Type :=
| Pending
| Fulfilled (v : Value)
| Rejected (reason : Value)
| Follows (p : PromiseId)
| Stalled.

Inductive Settlement : Type :=
| SPending
| SFulfilled (v : Value)
| SRejected (reason : Value).

(** ** The state of one provider instance

    - [renderModal]: the value [useState] returned at the last render;
    - [queued]: the value passed to [setRenderModal] since the last render,
      if any (a later call replaces an earlier one: the updates are plain
      values, the last one wins at the next render);
    - [promiseRef]: [promiseRef.current], written in place;
    - [promises]: the promises allocated so far;
    - [invoked]: the settlement callbacks called so far, oldest first. *)
Record Host : Type := mkHost {
  renderModal : option ShowModalParams;
  queued : option (option ShowModalParams);
  promiseRef : option PromiseRef;
  promises : list PromiseCell;
  invoked : list (Callback * Value)
}.

(** The provider as first mounted: [useState(null)], [useRef(null)]. *)
Definition initial : Host :=
  {| renderModal := None; queued := None; promiseRef := None;
     promises := []; invoked := [] |}.

(** ** A state monad for the provider's event handlers *)

Definition M (A : Type) : Type := Host -> A * Host.

#[global] Instance M_ret : MRet M := fun A a s => (a, s).
#[global] Instance M_bind : MBind M :=
  fun A B k m s => let '(a, s') := m s in k a s'.

Definition exec {A} (m : M A) (s : Host) : Host := snd (m s).
Definition eval {A} (m : M A) (s : Host) : A := fst (m s).

(** [setRenderModal(v)] *)
Definition setRenderModal (v : option ShowModalParams) : M unit :=
  fun s => (tt, {| renderModal := renderModal s; queued := Some v;
                   promiseRef := promiseRef s; promises := promises s;
                   invoked := invoked s |}).

(** [promiseRef.current] and [promiseRef.current = r] *)
Definition readRef : M (option PromiseRef) := fun s => (promiseRef s, s).

Definition writeRef (r : option PromiseRef) : M unit :=
  fun s => (tt, {| renderModal := renderModal s; queued := queued s;
                   promiseRef := r; promises := promises s;
                   invoked := invoked s |}).

Definition set_promises (cells : list PromiseCell) (s : Host) : Host :=
  {| renderModal := renderModal s; queued := queued s;
     promiseRef := promiseRef s; promises := cells; invoked := invoked s |}.

(** Allocation of a fresh pending promise. *)
Definition alloc : M PromiseId :=
  fun s => (length (promises s), set_promises (promises s ++ [Pending]) s).

(** [new Promise(executor)]: the executor runs at once, with the two
    resolving functions of the new promise. *)
Definition newPromise (executor : Callback -> Callback -> M unit) : M PromiseId :=
  p ← alloc; executor (ResolveOf p) (RejectOf p);; mret p.

(** A settlement takes effect on a pending promise only. *)
Definition settle (p : PromiseId) (c : PromiseCell) (cells : list PromiseCell)
  : list PromiseCell :=
  match cells !! p with
  | Some Pending => <[p := c]> cells
  | _ => cells
  end.

(** The error a promise is rejected with when it is resolved with itself. *)
Definition selfResolutionError : Value :=
  VObj [("name", VStr "TypeError");
        ("message", VStr "Chaining cycle detected for promise #<Promise>")].

(** What the [resolve] function of the pending promise [p] makes of its
    argument: plain data fulfils the promise; a thenable is adopted, the
    promise taking the thenable's fate (a thenable that fulfils with [v]
    resolves the promise with [v] in turn); the promise itself is refused. *)
Fixpoint resolution (p : PromiseId) (x : Value) : PromiseCell :=
  match x with
  | VPromise q => if Nat.eqb q p then Rejected selfResolutionError else Follows q
  | VThenable Never => Stalled
  | VThenable (Fulfils v) => resolution p v
  | VThenable (Rejects r) => Rejected r
  | _ => Fulfilled x
  end.

(** Calling a resolving function: [resolve] resolves, [reject] rejects with
    its argument as it is. *)
Definition call (cb : Callback) (v : Value) : M unit :=
  fun s =>
    let cells :=
      match cb with
      | ResolveOf p => settle p (resolution p v) (promises s)
      | RejectOf p => settle p (Rejected v) (promises s)
      end in
    (tt, {| renderModal := renderModal s; queued := queued s;
            promiseRef := promiseRef s; promises := cells;
            invoked := invoked s ++ [(cb, v)] |}).

(** Resolving the promise [q] with the promise [p]. *)
Definition resolveWith (q p : PromiseId) : M unit :=
  fun s => (tt, set_promises (settle q (Follows p) (promises s)) s).

(** [async] around a body that returns a promise: the function's own promise
    is created first and is resolved with the promise the body returns. *)
Definition async (body : M PromiseId) : M PromiseId :=
  q ← alloc;
  p ← body;
  resolveWith q p;;
  mret q.

(** The state a promise is observed in once the jobs queued by resolving it
    have run: a promise locked to another promise has the state of that
    promise. *)
Fixpoint follow (fuel : nat) (cells : list PromiseCell) (p : PromiseId) : Settlement :=
  match fuel with
  | O => SPending
  | S fuel' =>
      match cells !! p with
      | Some (Fulfilled v) => SFulfilled v
      | Some (Rejected r) => SRejected r
      | Some (Follows p') => follow fuel' cells p'
      | Some Pending | Some Stalled | None => SPending
      end
  end.

Definition promise_state (s : Host) (p : PromiseId) : Settlement :=
  follow (length (promises s)) (promises s) p.

(** ** [ModalContext.tsx] *)

(** [showModal] (lines 41-47). *)
Definition showModal (params : ShowModalParams) : M PromiseId :=
  async (
    setRenderModal (Some params);;
    newPromise (fun resolve reject =>
      writeRef (Some {| resolve := resolve; reject := reject |}))).

(** An omitted argument is [undefined]. *)
Definition argument (result : option Value) : Value := default VUndefined result.

(** [handleClose] (lines 49-57). *)
Definition handleClose (result : option Value) : M unit :=
  current ← readRef;
  match current with
  | Some r => call (resolve r) (argument result)
  | None => mret tt
  end;;
  writeRef None;;
  setRenderModal None.

(** [interface AsyncModalProps] *)
Module Props.
Record t : Type := mk {
  onClose : option Value -> M unit;
  dismissible : bool;
  data : option Value
}.
End Props.

(** [interface ModalContextType] *)
Module Ctx.
Record t : Type := mk {
  showModal : ShowModalParams -> M PromiseId
}.
End Ctx.

Definition memValue : Ctx.t := {| Ctx.showModal := showModal |}.

(** [a ?? b] on an optional boolean. *)
Definition nullish (a : option bool) (b : bool) : bool :=
  match a with
  | Some x => x
  | None => b
  end.

(** What the provider returns from one render (lines 63-75): the context
    value, the children, and the dialog element when [renderModal] is not
    null. *)
Record Rendered : Type := mkRendered {
  value : Ctx.t;
  children : ReactElement;
  dialog : option (ComponentType * Props.t)
}.

Definition AsyncModalProvider (children : ReactElement) (s : Host) : Rendered :=
  {| value := memValue;
     children := children;
     dialog :=
       match renderModal s with
       | Some rm =>
           Some (modal rm,
                 {| Props.onClose := handleClose;
                    Props.dismissible := nullish (dismissible rm) true;
                    Props.data := data rm |})
       | None => None
       end |}.

(** The dialog element on screen: the one of the last render. *)
Definition rendered (s : Host) : option (ComponentType * Props.t) :=
  dialog (AsyncModalProvider "children" s).

(** A re-render: the queued state update becomes the state. *)
Definition render (s : Host) : Host :=
  {| renderModal := default (renderModal s) (queued s);
     queued := None;
     promiseRef := promiseRef s;
     promises := promises s;
     invoked := invoked s |}.

(** The Held State: the value React holds for [renderModal], counting the
    update that is queued for the next render. *)
Definition held (s : Host) : option ShowModalParams :=
  default (renderModal s) (queued s).

(** ** [useAsyncModal.ts] *)

Record Error : Type := mkError { message : string }.

Inductive Outcome (A : Type) : Type :=
| Returned (a : A)
| Thrown (e : Error).
Arguments Returned {A} a.
Arguments Thrown {A} e.

(** [useContext(ModalContext)] at a place in the tree, given the values of
    the enclosing providers, nearest first; the context's default is null. *)
Definition useContext (enclosing : list Ctx.t) : option Ctx.t := head enclosing.

Definition useAsyncModal (enclosing : list Ctx.t) : Outcome Ctx.t :=
  let context := useContext enclosing in
  match context with
  | None =>
      Thrown {| message := "useAsyncModal must be used within a AsyncModalProvider" |}
  | Some c => Returned c
  end.

(** ** Histories of one provider *)

Inductive Op : Type :=
| Request (params : ShowModalParams)
| Complete (result : option Value)
| Render.

Definition step (s : Host) (op : Op) : Host :=
  match op with
  | Request params => exec (showModal params) s
  | Complete result => exec (handleClose result) s
  | Render => render s
  end.

Definition run (ops : list Op) (s : Host) : Host := fold_left step ops s.

Definition renders (k : nat) (s : Host) : Host := Nat.iter k render s.

(** ** Notions used in the statements *)

(** The handle [showModal] stores for the promise [p]. *)
Definition handle (p : PromiseId) : PromiseRef :=
  {| resolve := ResolveOf p; reject := RejectOf p |}.

(** What holds of the provider between any two operations: [promiseRef] is
    set exactly when a descriptor is held, it then holds the two resolving
    functions of one pending promise, and only [resolve] callbacks have been
    called. *)
Record consistent (s : Host) : Prop := mkConsistent {
  slot_held : promiseRef s = None <-> held s = None;
  slot_pending :
    forall r, promiseRef s = Some r ->
              exists p, r = handle p /\ promises s !! p = Some Pending;
  only_resolve : forall cb v, (cb, v) ∈ invoked s -> exists p, cb = ResolveOf p
}.



(** A thenable that rejects and one that never settles, used in the
    examples. *)
Definition rejecting : Value := VThenable (Rejects (VStr "declined")).
Definition unsettled : Value := VThenable Never.

(** Two descriptors of a two-step wizard, used in the examples. *)
Definition stepOne : ShowModalParams :=
  {| modal := "StepOne"; dismissible := None; data := None |}.
Definition stepTwo : ShowModalParams :=
  {| modal := "StepTwo"; dismissible := Some false;
     data := Some (VObj [("message", VStr "x")]) |}.

(** The calls of [reject] callbacks made so far. *)
Definition is_reject (cb : Callback) : bool :=
  match cb with
  | RejectOf _ => true
  | ResolveOf _ => false
  end.

Definition rejections (s : Host) : list (Callback * Value) :=
  List.filter (fun c => is_reject (fst c)) (invoked s).

(** A pending promise no handle can reach any more. *)
Definition abandoned (p : PromiseId) (s : Host) : Prop :=
  promises s !! p = Some Pending /\
  forall r, promiseRef s = Some r -> resolve r ≠ ResolveOf p /\ resolve r ≠ RejectOf p.

(** How the trace of called callbacks and the promise cells go together: a
    callback in the trace is the [resolve] of a promise that is resolved with
    the value it was called with, and no callback occurs twice. *)
Record traced (s : Host) : Prop := mkTraced {
  traced_resolved :
    forall cb v, (cb, v) ∈ invoked s ->
                 exists p, cb = ResolveOf p /\ promises s !! p = Some (resolution p v);
  traced_once : NoDup (fst <$> invoked s)
}.

(** Where the promise of one request stands: its [resolve] has not been
    called and it is pending, or its [resolve] has been called with some
    value and it is resolved with that value. *)
Definition awaiting (p : PromiseId) (s : Host) : Prop :=
  promises s !! p = Some Pending /\ forall v, (ResolveOf p, v) ∉ invoked s.

Definition resolved_with (p : PromiseId) (v : Value) (s : Host) : Prop :=
  (ResolveOf p, v) ∈ invoked s /\ promises s !! p = Some (resolution p v).

(** The requests and the completions of a history. *)
Definition is_request (op : Op) : bool :=
  match op with
  | Request _ => true
  | _ => false
  end.

Definition is_complete (op : Op) : bool :=
  match op with
  | Complete _ => true
  | _ => false
  end.

Definition requests (ops : list Op) : nat := length (List.filter is_request ops).
Definition completions (ops : list Op) : nat := length (List.filter is_complete ops).

(** One when [promiseRef] holds a handle, zero when it is null. *)
Definition slot_size (s : Host) : nat :=
  match promiseRef s with
  | Some _ => 1
  | None => 0
  end.

(** ** The handlers, step by step *)

Lemma settle_fresh (cells : list PromiseCell) (c : PromiseCell) (tl : list PromiseCell) :
  settle (length cells) c (cells ++ Pending :: tl) = cells ++ c :: tl.
Proof.
  unfold settle.
  rewrite list_lookup_middle by reflexivity.
  replace (length cells) with (length cells + 0) at 1 by lia.
  rewrite insert_app_r. reflexivity.
Qed.

Lemma showModal_unfold (params : ShowModalParams) (s : Host) :
  showModal params s =
  (length (promises s),
   {| renderModal := renderModal s;
      queued := Some (Some params);
      promiseRef := Some (handle (S (length (promises s))));
      promises := promises s ++ [Follows (S (length (promises s))); Pending];
      invoked := invoked s |}).
Proof.
  unfold showModal, async, newPromise, mbind, mret, M_bind, M_ret.
  cbn. unfold set_promises. cbn.
  rewrite length_app. cbn.
  replace (length (promises s) + 1) with (S (length (promises s))) by lia.
  rewrite <- (app_assoc (promises s) [Pending] [Pending]). cbn.
  rewrite settle_fresh. reflexivity.
Qed.

Lemma handleClose_unfold (result : option Value) (s : Host) :
  exec (handleClose result) s =
  {| renderModal := renderModal s;
     queued := Some None;
     promiseRef := None;
     promises :=
       match promiseRef s with
       | Some r =>
           match resolve r with
           | ResolveOf p => settle p (resolution p (argument result)) (promises s)
           | RejectOf p => settle p (Rejected (argument result)) (promises s)
           end
       | None => promises s
       end;
     invoked :=
       match promiseRef s with
       | Some r => invoked s ++ [(resolve r, argument result)]
       | None => invoked s
       end |}.
Proof.
  unfold exec, handleClose, mbind, mret, M_bind, M_ret, readRef.
  destruct (promiseRef s) as [r|]; reflexivity.
Qed.

Lemma run_snoc (ops : list Op) (op : Op) (s : Host) :
  run (ops ++ [op]) s = step (run ops s) op.
Proof. unfold run. rewrite fold_left_app. reflexivity. Qed.

Lemma run_app (ops1 ops2 : list Op) (s : Host) :
  run (ops1 ++ ops2) s = run ops2 (run ops1 s).
Proof. unfold run. apply fold_left_app. Qed.

Lemma held_render (s : Host) : held (render s) = held s.
Proof. unfold held, render. cbn. reflexivity. Qed.

Lemma renderModal_render (s : Host) : renderModal (render s) = held s.
Proof. reflexivity. Qed.

Lemma renders_S (k : nat) (s : Host) : renders (S k) s = render (renders k s).
Proof. reflexivity. Qed.

Lemma renders_keep (k : nat) (s : Host) :
  promiseRef (renders k s) = promiseRef s /\
  promises (renders k s) = promises s /\
  invoked (renders k s) = invoked s /\
  held (renders k s) = held s.
Proof.
  induction k as [|k IH]; [tauto|].
  rewrite renders_S, held_render. cbn. exact IH.
Qed.

Lemma renders_run (k : nat) (s : Host) : renders k s = run (replicate k Render) s.
Proof.
  revert s. induction k as [|k IH]; intros s; [reflexivity|].
  rewrite renders_S, IH.
  change (S k) with (1 + k). rewrite Nat.add_comm, replicate_add, run_app.
  reflexivity.
Qed.


Lemma settle_keeps (p i : PromiseId) (c : PromiseCell) (cells : list PromiseCell) :
  cells !! i ≠ Some Pending -> settle p c cells !! i = cells !! i.
Proof.
  unfold settle. intros H.
  destruct (cells !! p) as [[| | | |]|] eqn:E; auto.
  destruct (decide (i = p)) as [->|Hne]; [congruence|].
  rewrite list_lookup_insert_ne by congruence. reflexivity.
Qed.

Lemma settle_other (p i : PromiseId) (c : PromiseCell) (cells : list PromiseCell) :
  i ≠ p -> settle p c cells !! i = cells !! i.
Proof.
  unfold settle. intros H.
  destruct (cells !! p) as [[| | | |]|] eqn:E; auto.
  rewrite list_lookup_insert_ne by congruence. reflexivity.
Qed.

Lemma settle_pending (p : PromiseId) (c : PromiseCell) (cells : list PromiseCell) :
  cells !! p = Some Pending -> settle p c cells = <[p := c]> cells.
Proof. unfold settle. intros ->. reflexivity. Qed.

Lemma settle_length (p : PromiseId) (c : PromiseCell) (cells : list PromiseCell) :
  length (settle p c cells) = length cells.
Proof.
  unfold settle. destruct (cells !! p) as [[| | | |]|]; auto.
  apply length_insert.
Qed.

(** ** The invariant is kept by every operation *)

Lemma consistent_initial : consistent initial.
Proof.
  split; cbn.
  - tauto.
  - discriminate.
  - intros cb v H. inversion H.
Qed.

Lemma consistent_showModal (params : ShowModalParams) (s : Host) :
  consistent s -> consistent (exec (showModal params) s).
Proof.
  intros [Hslot Hpend Hinv].
  unfold exec. rewrite showModal_unfold. cbn.
  split; cbn.
  - unfold held. cbn. split; discriminate.
  - intros r [= <-]. eexists. split; [reflexivity|].
    rewrite lookup_app_r by lia.
    replace (S (length (promises s)) - length (promises s)) with 1 by lia.
    reflexivity.
  - exact Hinv.
Qed.

Lemma consistent_handleClose (result : option Value) (s : Host) :
  consistent s -> consistent (exec (handleClose result) s).
Proof.
  intros [Hslot Hpend Hinv].
  rewrite handleClose_unfold.
  split; cbn.
  - unfold held. cbn. tauto.
  - discriminate.
  - intros cb v H.
    destruct (promiseRef s) as [r|] eqn:E; [|exact (Hinv _ _ H)].
    destruct (Hpend r eq_refl) as (p0 & -> & _). cbn in H.
    apply elem_of_app in H as [H|H]; [exact (Hinv _ _ H)|].
    apply list_elem_of_singleton in H. inversion H; subst. eauto.
Qed.

Lemma consistent_render (s : Host) : consistent s -> consistent (render s).
Proof.
  intros [Hslot Hpend Hinv].
  split; [rewrite held_render|..]; assumption.
Qed.

Lemma consistent_step (s : Host) (op : Op) : consistent s -> consistent (step s op).
Proof.
  destruct op; cbn;
    auto using consistent_showModal, consistent_handleClose, consistent_render.
Qed.

Lemma consistent_run (ops : list Op) (s : Host) : consistent s -> consistent (run ops s).
Proof.
  revert s. induction ops as [|op ops IH]; intros s H; [exact H|].
  cbn. apply IH, consistent_step, H.
Qed.

Lemma consistent_reachable (ops : list Op) : consistent (run ops initial).
Proof. apply consistent_run, consistent_initial. Qed.


(** ** Observing promises *)

Lemma follow_locked_pending (fuel : nat) (cells : list PromiseCell) (q p : PromiseId) :
  cells !! q = Some (Follows p) -> cells !! p = Some Pending ->
  follow fuel cells q = SPending.
Proof.
  intros Hq Hp. destruct fuel as [|[|fuel]]; cbn; rewrite ?Hq; cbn; rewrite ?Hp; reflexivity.
Qed.

Lemma follow_locked_fulfilled (fuel : nat) (cells : list PromiseCell) (q p : PromiseId)
    (v : Value) :
  cells !! q = Some (Follows p) -> cells !! p = Some (Fulfilled v) ->
  2 <= fuel -> follow fuel cells q = SFulfilled v.
Proof.
  intros Hq Hp Hfuel. destruct fuel as [|[|fuel]]; [lia|lia|].
  cbn. rewrite Hq. cbn. rewrite Hp. reflexivity.
Qed.


Lemma resolution_plain (p : PromiseId) (v : Value) :
  thenable v = false -> resolution p v = Fulfilled v.
Proof. destruct v; cbn; (discriminate || reflexivity). Qed.

(** A resolved promise is never left [Pending]. *)
Lemma resolution_not_pending (p : PromiseId) (x : Value) : resolution p x ≠ Pending.
Proof.
  revert x. fix IH 1. intros x. destruct x as [| | | | | |q|fate]; cbn; try discriminate.
  - destruct (Nat.eqb q p); discriminate.
  - destruct fate as [|v|r]; try discriminate. apply IH.
Qed.

(** A promise locked to a promise that is not itself locked to another one
    is observed as that promise is. *)
Lemma follow_locked_cell (fuel : nat) (cells : list PromiseCell) (q p : PromiseId)
    (c : PromiseCell) :
  cells !! q = Some (Follows p) -> cells !! p = Some c ->
  (forall p', c ≠ Follows p') -> 2 <= fuel ->
  follow fuel cells q =
    match c with
    | Fulfilled v => SFulfilled v
    | Rejected r => SRejected r
    | _ => SPending
    end.
Proof.
  intros Hq Hp Hc Hfuel. destruct fuel as [|[|fuel]]; [lia|lia|].
  cbn. rewrite Hq. cbn. rewrite Hp.
  destruct c as [|v|r|p'|]; try reflexivity. destruct (Hc p' eq_refl).
Qed.

(** ** Abandoned promises *)

Lemma abandoned_step (p : PromiseId) (s : Host) (op : Op) :
  abandoned p s -> abandoned p (step s op).
Proof.
  intros [Hcell Href]. destruct op as [params|result|]; cbn.
  - unfold exec. rewrite showModal_unfold. cbn. split; cbn.
    + rewrite lookup_app_l by (eapply lookup_lt_Some; eauto). exact Hcell.
    + intros r [= <-]. cbn. apply lookup_lt_Some in Hcell.
      split; [intros [= E]; lia|discriminate].
  - rewrite handleClose_unfold. split; cbn; [|discriminate].
    destruct (promiseRef s) as [r|]; [|exact Hcell].
    destruct (Href r eq_refl) as [Hres Hrej].
    destruct (resolve r) as [p'|p']; rewrite settle_other; auto; congruence.
  - exact (conj Hcell Href).
Qed.

Lemma abandoned_run (p : PromiseId) (ops : list Op) (s : Host) :
  abandoned p s -> abandoned p (run ops s).
Proof.
  revert s. induction ops as [|op ops IH]; intros s H; [exact H|].
  cbn. apply IH, abandoned_step, H.
Qed.

Lemma locked_step (q p : PromiseId) (s : Host) (op : Op) :
  promises s !! q = Some (Follows p) -> promises (step s op) !! q = Some (Follows p).
Proof.
  intros Hcell. destruct op as [params|result|]; cbn.
  - unfold exec. rewrite showModal_unfold. cbn.
    rewrite lookup_app_l by (eapply lookup_lt_Some; eauto). exact Hcell.
  - rewrite handleClose_unfold. cbn.
    destruct (promiseRef s) as [r|]; [|exact Hcell].
    destruct (resolve r) as [p'|p']; rewrite settle_keeps; congruence.
  - exact Hcell.
Qed.

Lemma locked_run (q p : PromiseId) (ops : list Op) (s : Host) :
  promises s !! q = Some (Follows p) -> promises (run ops s) !! q = Some (Follows p).
Proof.
  revert s. induction ops as [|op ops IH]; intros s H; [exact H|].
  cbn. apply IH, locked_step, H.
Qed.

(** What a request leaves behind, however many re-renders follow. *)
Lemma requested (params : ShowModalParams) (k : nat) (s : Host) :
  let q := eval (showModal params) s in
  let s' := renders k (exec (showModal params) s) in
  q = length (promises s) /\
  held s' = Some params /\
  promiseRef s' = Some (handle (S q)) /\
  promises s' = promises s ++ [Follows (S q); Pending] /\
  invoked s' = invoked s.
Proof.
  cbn. destruct (renders_keep k (exec (showModal params) s)) as (-> & -> & -> & ->).
  unfold eval, exec. rewrite showModal_unfold. cbn. unfold held. cbn. tauto.
Qed.

Lemma requested_cells (cells : list PromiseCell) (c : PromiseCell) :
  (cells ++ [Follows (S (length cells)); c]) !! length cells
    = Some (Follows (S (length cells))) /\
  (cells ++ [Follows (S (length cells)); c]) !! S (length cells) = Some c.
Proof.
  split.
  - rewrite list_lookup_middle; reflexivity.
  - rewrite lookup_app_r by lia.
    replace (S (length cells) - length cells) with 1 by lia. reflexivity.
Qed.

(** A descriptor is held only as the descriptor of the latest request, with
    nothing but re-renders since. *)
Lemma held_latest_request (ops : list Op) (d : ShowModalParams) :
  held (run ops initial) = Some d ->
  exists pre k, run ops initial = renders k (exec (showModal d) (run pre initial)).
Proof.
  induction ops as [|op ops IH] using rev_ind; [discriminate|].
  rewrite run_snoc. destruct op as [params|result|]; cbn [step].
  - intros H. exists ops, 0.
    destruct (requested params 0 (run ops initial)) as (_ & Hheld & _).
    cbn in Hheld. cbn in H. rewrite Hheld in H. injection H as ->. reflexivity.
  - rewrite handleClose_unfold. discriminate.
  - rewrite held_render. intros H.
    destruct (IH H) as (pre & k & ->). exists pre, (S k). reflexivity.
Qed.

(** The scenario of the specification, from mounting to unmounting. *)
Example confirm_dialog_scenario :
  let d := {| modal := "ConfirmDialog"; dismissible := None;
              data := Some (VObj [("message", VStr "x")]) |} in
  let q := eval (showModal d) initial in
  let s1 := render (exec (showModal d) initial) in
  exists props,
    rendered s1 = Some ("ConfirmDialog", props) /\
    Props.data props = Some (VObj [("message", VStr "x")]) /\
    Props.dismissible props = true /\
    promise_state s1 q = SPending /\
    let s2 := render (exec (Props.onClose props (Some (VBool true))) s1) in
    promise_state s2 q = SFulfilled (VBool true) /\ rendered s2 = None.
Proof.
  cbn zeta. eexists. split; [reflexivity|]. repeat split.
Qed.



(** ** Requests, completions and what is on screen *)

(** C1. A second request issued before the dialog of the first has called
    [onClose] (only re-renders in between) replaces the held descriptor, so
    that the dialog rendered next is the view of the second descriptor; the
    promise returned by the first request stays pending whatever operations
    follow: it is neither resolved nor rejected. *)
Theorem C1_second_request_abandons_first
    (pre : list Op) (d1 d2 : ShowModalParams) (k : nat) (post : list Op) :
  let s0 := run pre initial in
  let q1 := eval (showModal d1) s0 in
  let s1 := renders k (exec (showModal d1) s0) in
  let s2 := exec (showModal d2) s1 in
  held s2 = Some d2 /\
  rendered (render s2) =
    Some (modal d2,
          {| Props.onClose := handleClose;
             Props.dismissible := nullish (dismissible d2) true;
             Props.data := data d2 |}) /\
  promise_state (run post s2) q1 = SPending /\
  promises (run post s2) !! S q1 = Some Pending.
Proof.
  intros s0 q1 s1 s2.
  pose proof (requested d1 k s0) as (Hq1 & _ & _ & Hcells1 & _).
  pose proof (requested d2 0 s1) as (Hq2 & Hheld2 & Href2 & Hcells2 & _).
  cbn zeta in *. change (renders 0 ?s) with s in *.
  fold q1 s1 in Hq1, Hcells1. fold s1 s2 in Hq2, Hheld2, Href2, Hcells2.
  destruct (requested_cells (promises s0) Pending) as [Hlock Hpend].
  rewrite <- Hq1, <- Hcells1 in Hlock, Hpend.
  assert (Hlock2 : promises s2 !! q1 = Some (Follows (S q1))).
  { rewrite Hcells2, lookup_app_l by (eapply lookup_lt_Some; eauto). exact Hlock. }
  assert (Hab : abandoned (S q1) s2).
  { split.
    - rewrite Hcells2, lookup_app_l by (eapply lookup_lt_Some; eauto). exact Hpend.
    - intros r Hr. rewrite Href2 in Hr. injection Hr as <-. cbn.
      apply lookup_lt_Some in Hpend. rewrite Hq2.
      split; [intros [= E]; lia|discriminate]. }
  apply (abandoned_run _ post) in Hab as [Hcell _].
  apply (locked_run _ _ post) in Hlock2.
  split; [|split; [|split]].
  - exact Hheld2.
  - unfold rendered, AsyncModalProvider. cbn [dialog].
    rewrite renderModal_render, Hheld2. reflexivity.
  - unfold promise_state. eapply follow_locked_pending; eauto.
  - exact Hcell.
Qed.

(** C2, counterexample.  The [onClose] of the dialog on screen is not bound
    to the request that put the dialog there: it is [handleClose], which
    reads [promiseRef.current] when it is called.  In the click handler of
    [StepOne], [showModal(stepTwo)] followed by [onClose(true)] runs before
    the provider renders again: [StepOne] is still the dialog on screen, its
    [onClose] fulfils the promise of the second request with [true], and the
    promise of the first request, whose dialog it is, stays pending. *)
Lemma C2_onClose_reads_the_slot :
  let q1 := eval (showModal stepOne) initial in
  let s1 := render (exec (showModal stepOne) initial) in
  let q2 := eval (showModal stepTwo) s1 in
  let s2 := exec (showModal stepTwo) s1 in
  exists props,
    rendered s2 = Some ("StepOne", props) /\
    q1 ≠ q2 /\
    promise_state (exec (Props.onClose props (Some (VBool true))) s2) q1 = SPending /\
    promise_state (exec (Props.onClose props (Some (VBool true))) s2) q2
      = SFulfilled (VBool true) /\
    rendered (render (exec (Props.onClose props (Some (VBool true))) s2)) = None.
Proof.
  cbn zeta. eexists. split; [reflexivity|].
  split; [discriminate|].
  split; [reflexivity|]. split; reflexivity.
Qed.

(** C2 (amended). When the dialog of a request is on screen and nothing but
    re-renders has happened since that request, the [onClose] handed to the
    dialog is [handleClose]; calling it resolves the promise that request
    returned with the result and changes no other promise: the cells are
    those before the call with the one promise created by that request
    resolved.  When the result is not a thenable the promise is thereby
    fulfilled with the result. *)
Theorem C2_onClose_resolves_rendered_request
    (pre : list Op) (d : ShowModalParams) (k : nat) (result : option Value) :
  let s0 := run pre initial in
  let q := eval (showModal d) s0 in
  let s1 := renders (S k) (exec (showModal d) s0) in
  exists props,
    rendered s1 = Some (modal d, props) /\
    Props.onClose props = handleClose /\
    promises (exec (Props.onClose props result) s1)
      = <[S q := resolution (S q) (argument result)]> (promises s1) /\
    (thenable (argument result) = false ->
     promise_state (exec (Props.onClose props result) s1) q
       = SFulfilled (argument result)).
Proof.
  intros s0 q s1.
  pose proof (requested d (S k) s0) as (Hq & Hheld & Href & Hcells & _).
  cbn zeta in *. fold q s1 in Hq, Hheld, Href, Hcells.
  destruct (requested_cells (promises s0) Pending) as [Hlock Hpend].
  rewrite <- Hq, <- Hcells in Hlock, Hpend.
  assert (Hrm : renderModal s1 = Some d).
  { unfold s1. rewrite renders_S, renderModal_render.
    apply (requested d k s0). }
  eexists. split.
  { unfold rendered, AsyncModalProvider. cbn [dialog]. rewrite Hrm. reflexivity. }
  split; [reflexivity|].
  cbn [Props.onClose].
  assert (Hafter : promises (exec (handleClose result) s1)
                   = <[S q := resolution (S q) (argument result)]> (promises s1)).
  { rewrite handleClose_unfold. cbn [promises]. rewrite Href. cbn [resolve handle].
    apply settle_pending, Hpend. }
  split; [exact Hafter|].
  intros Hplain. unfold promise_state. rewrite Hafter, length_insert.
  rewrite (resolution_plain _ _ Hplain).
  apply follow_locked_fulfilled with (p := S q).
  - rewrite list_lookup_insert_ne by lia. exact Hlock.
  - apply list_lookup_insert_eq. eapply lookup_lt_Some; eauto.
  - apply lookup_lt_Some in Hpend. lia.
Qed.

(** C3, counterexample.  [onClose] hands its argument to the [resolve] of
    the promise, and [resolve] adopts a thenable: called with a promise that
    rejects, the promise of the request is rejected with that promise's
    reason; called with a promise that never settles, it stays pending.  In
    neither case is it settled to the argument. *)
Lemma C3_thenable_result_is_adopted :
  let q := eval (showModal stepOne) initial in
  let s1 := render (exec (showModal stepOne) initial) in
  held s1 = Some stepOne /\
  promise_state (exec (handleClose (Some rejecting)) s1) q = SRejected (VStr "declined") /\
  promise_state (exec (handleClose (Some rejecting)) s1) q ≠ SFulfilled rejecting /\
  promise_state (exec (handleClose (Some unsettled)) s1) q = SPending /\
  promise_state (exec (handleClose (Some unsettled)) s1) q ≠ SFulfilled unsettled.
Proof.
  cbn zeta. split; [reflexivity|]. split; [reflexivity|].
  split; [discriminate|]. split; [reflexivity|discriminate].
Qed.

(** C3 (amended). While a descriptor is held, calling the completion
    callback with a value [v] that is not a thenable fulfils the promise
    returned by the request of that descriptor with [v]; calling it with no
    argument fulfils it with [undefined].  Until then the promise is
    pending. *)
Theorem C3_onClose_fulfils_with_plain_value
    (pre : list Op) (d : ShowModalParams) (k : nat) (v : Value) :
  thenable v = false ->
  let s0 := run pre initial in
  let q := eval (showModal d) s0 in
  let s1 := renders k (exec (showModal d) s0) in
  held s1 = Some d /\
  promise_state s1 q = SPending /\
  promise_state (exec (handleClose (Some v)) s1) q = SFulfilled v /\
  promise_state (exec (handleClose None) s1) q = SFulfilled VUndefined.
Proof.
  intros Hplain s0 q s1.
  pose proof (requested d k s0) as (Hq & Hheld & Href & Hcells & _).
  cbn zeta in *. fold q s1 in Hq, Hheld, Href, Hcells.
  destruct (requested_cells (promises s0) Pending) as [Hlock Hpend].
  rewrite <- Hq, <- Hcells in Hlock, Hpend.
  assert (Hclose : forall result,
             thenable (argument result) = false ->
             promise_state (exec (handleClose result) s1) q
             = SFulfilled (argument result)).
  { intros result Hres. unfold promise_state. rewrite handleClose_unfold. cbn.
    rewrite Href. cbn. rewrite settle_length.
    apply follow_locked_fulfilled with (p := S q).
    - rewrite settle_keeps; congruence.
    - rewrite settle_pending by exact Hpend.
      rewrite (resolution_plain _ _ Hres).
      apply list_lookup_insert_eq. eapply lookup_lt_Some; eauto.
    - apply lookup_lt_Some in Hpend. lia. }
  split; [|split; [|split]].
  - exact Hheld.
  - unfold promise_state. eapply follow_locked_pending; eauto.
  - exact (Hclose (Some v) Hplain).
  - exact (Hclose None eq_refl).
Qed.

Lemma C3_onClose_fulfils_with_plain_value_witness :
  thenable (VBool true) = false /\
  held (renders 1 (exec (showModal stepOne) (run [] initial))) = Some stepOne /\
  promise_state (renders 1 (exec (showModal stepOne) (run [] initial)))
    (eval (showModal stepOne) (run [] initial)) = SPending /\
  promise_state
    (exec (handleClose (Some (VBool true)))
       (renders 1 (exec (showModal stepOne) (run [] initial))))
    (eval (showModal stepOne) (run [] initial)) = SFulfilled (VBool true) /\
  promise_state
    (exec (handleClose None) (renders 1 (exec (showModal stepOne) (run [] initial))))
    (eval (showModal stepOne) (run [] initial)) = SFulfilled VUndefined.
Proof.
  split; [reflexivity|].
  apply (C3_onClose_fulfils_with_plain_value [] stepOne 1 (VBool true)). reflexivity.
Defined.

(** C4. A request whose descriptor leaves [dismissible] unset renders its
    dialog with [dismissible] true; one whose descriptor sets it to false
    renders its dialog with [dismissible] false. *)
Theorem C4_dismissible_default
    (pre : list Op) (m : ComponentType) (payload : option Value) (k : nat) :
  let unset := {| modal := m; dismissible := None; data := payload |} in
  let off := {| modal := m; dismissible := Some false; data := payload |} in
  (Props.dismissible ∘ snd <$>
     rendered (renders (S k) (exec (showModal unset) (run pre initial)))) = Some true /\
  (Props.dismissible ∘ snd <$>
     rendered (renders (S k) (exec (showModal off) (run pre initial)))) = Some false.
Proof.
  intros unset off. unfold rendered, AsyncModalProvider. cbn [dialog].
  pose proof (requested unset k (run pre initial)) as (_ & Hu & _).
  pose proof (requested off k (run pre initial)) as (_ & Ho & _).
  cbn zeta in *.
  rewrite !renders_S, !renderModal_render, Hu, Ho. split; reflexivity.
Qed.

(** C5. [useAsyncModal] throws its configuration error where no provider
    encloses the caller, and returns the context value of the nearest
    enclosing provider otherwise, which for an [AsyncModalProvider] is the
    object holding [showModal]; there is no third outcome. *)
Theorem C5_useAsyncModal_outcomes :
  useAsyncModal [] =
    Thrown {| message := "useAsyncModal must be used within a AsyncModalProvider" |} /\
  (forall (nearest : Ctx.t) (outer : list Ctx.t),
      useAsyncModal (nearest :: outer) = Returned nearest) /\
  (forall (ch : ReactElement) (s : Host) (outer : list Ctx.t),
      useAsyncModal (value (AsyncModalProvider ch s) :: outer)
      = Returned {| Ctx.showModal := showModal |}) /\
  (forall enclosing : list Ctx.t,
      (useContext enclosing = None /\ exists e, useAsyncModal enclosing = Thrown e) \/
      (exists c, useContext enclosing = Some c /\ useAsyncModal enclosing = Returned c)).
Proof.
  split; [reflexivity|]. split; [reflexivity|]. split; [reflexivity|].
  intros [|c rest]; [left|right]; cbn; eauto.
Qed.

(** C6. After [onClose] is called, with or without a result, nothing is held
    and [promiseRef] is empty, and from the next render on no dialog is on
    screen; this holds from every state, whether [promiseRef] held a handle
    or not. *)
Theorem C6_onClose_clears (s : Host) (result : option Value) (k : nat) :
  let s' := exec (handleClose result) s in
  held s' = None /\
  promiseRef s' = None /\
  renderModal (renders (S k) s') = None /\
  rendered (renders (S k) s') = None.
Proof.
  intros s'.
  assert (Hheld : held s' = None) by (unfold s'; rewrite handleClose_unfold; reflexivity).
  assert (Hrm : renderModal (renders (S k) s') = None).
  { rewrite renders_S, renderModal_render.
    destruct (renders_keep k s') as (_ & _ & _ & ->). exact Hheld. }
  split; [exact Hheld|]. split; [unfold s'; rewrite handleClose_unfold; reflexivity|].
  split; [exact Hrm|].
  unfold rendered, AsyncModalProvider. cbn [dialog]. rewrite Hrm. reflexivity.
Qed.

(** C7. A second [onClose] before any new request changes nothing: called
    right after the first it returns the very same state; called after
    re-renders it settles no promise, calls no callback, leaves
    [promiseRef] and the held state empty, and the next render yields the
    same state as without it. *)
Theorem C7_onClose_idempotent (s : Host) (r1 r2 : option Value) (k : nat) :
  let s1 := renders k (exec (handleClose r1) s) in
  let s2 := exec (handleClose r2) s1 in
  exec (handleClose r2) (exec (handleClose r1) s) = exec (handleClose r1) s /\
  promises s2 = promises s1 /\
  invoked s2 = invoked s1 /\
  promiseRef s2 = None /\ promiseRef s1 = None /\
  held s2 = None /\ held s1 = None /\
  render s2 = render s1.
Proof.
  intros s1 s2.
  destruct (renders_keep k (exec (handleClose r1) s)) as (Href & _ & _ & Hheld).
  fold s1 in Href, Hheld.
  assert (Href1 : promiseRef s1 = None)
    by (rewrite Href, handleClose_unfold; reflexivity).
  assert (Hheld1 : held s1 = None)
    by (rewrite Hheld, handleClose_unfold; reflexivity).
  split.
  { rewrite (handleClose_unfold r2), (handleClose_unfold r1). reflexivity. }
  unfold s2. rewrite (handleClose_unfold r2 s1), Href1. cbn.
  repeat (split; try reflexivity); try assumption.
  unfold render. cbn [renderModal queued promiseRef promises invoked default].
  fold (held s1). rewrite Hheld1, Href1. reflexivity.
Qed.

(** C8. The dialog of a request receives as [data] the payload of the
    descriptor, as it was passed; when the descriptor has no [data] the
    dialog has none either. *)
Theorem C8_data_passed_through
    (pre : list Op) (m : ComponentType) (flag : option bool) (payload : option Value)
    (k : nat) :
  let d := {| modal := m; dismissible := flag; data := payload |} in
  (Props.data ∘ snd <$>
     rendered (renders (S k) (exec (showModal d) (run pre initial)))) = Some payload.
Proof.
  intros d. unfold rendered, AsyncModalProvider. cbn [dialog].
  pose proof (requested d k (run pre initial)) as (_ & Hd & _).
  cbn zeta in *.
  rewrite renders_S, renderModal_render, Hd. reflexivity.
Qed.

(** C9. In every state reached from the initial one by requests,
    completions and re-renders, the provider holds at most one descriptor,
    and [promiseRef] holds a handle exactly when a descriptor is held; after
    a render this is exactly when a dialog is on screen. *)
Theorem C9_single_slot_invariant (ops : list Op) :
  let s := run ops initial in
  length (option_list (held s)) <= 1 /\
  (is_Some (promiseRef s) <-> is_Some (held s)) /\
  (is_Some (promiseRef (render s)) <-> is_Some (rendered (render s))).
Proof.
  intros s. destruct (consistent_reachable ops) as [Hslot _ _]. fold s in Hslot.
  split; [destruct (held s); cbn; lia|].
  assert (H : is_Some (promiseRef s) <-> is_Some (held s)).
  { rewrite <- !not_eq_None_Some. tauto. }
  split; [exact H|].
  unfold rendered, AsyncModalProvider. cbn [dialog].
  rewrite renderModal_render. change (promiseRef (render s)) with (promiseRef s).
  rewrite H. destruct (held s); split; intros [x Hx]; try discriminate; eauto.
Qed.



(** ** Further properties of the handlers *)

Lemma settled_cell_step (p : PromiseId) (c : PromiseCell) (s : Host) (op : Op) :
  c ≠ Pending -> promises s !! p = Some c -> promises (step s op) !! p = Some c.
Proof.
  intros Hc Hcell. destruct op as [params|result|]; cbn.
  - unfold exec. rewrite showModal_unfold. cbn.
    rewrite lookup_app_l by (eapply lookup_lt_Some; eauto). exact Hcell.
  - rewrite handleClose_unfold. cbn.
    destruct (promiseRef s) as [r|]; [|exact Hcell].
    destruct (resolve r) as [p'|p']; rewrite settle_keeps; congruence.
  - exact Hcell.
Qed.

Lemma settled_cell_run (p : PromiseId) (c : PromiseCell) (ops : list Op) (s : Host) :
  c ≠ Pending -> promises s !! p = Some c -> promises (run ops s) !! p = Some c.
Proof.
  intros Hc. revert s. induction ops as [|op ops IH]; intros s H; [exact H|].
  cbn. apply IH, settled_cell_step; assumption.
Qed.

Lemma promises_grow_step (s : Host) (op : Op) :
  length (promises s) <= length (promises (step s op)).
Proof.
  destruct op as [params|result|]; cbn.
  - unfold exec. rewrite showModal_unfold. cbn. rewrite length_app. lia.
  - rewrite handleClose_unfold. cbn.
    destruct (promiseRef s) as [r|]; [|lia].
    destruct (resolve r); rewrite settle_length; lia.
  - lia.
Qed.

Lemma promises_grow_run (ops : list Op) (s : Host) :
  length (promises s) <= length (promises (run ops s)).
Proof.
  revert s. induction ops as [|op ops IH]; intros s; [cbn; lia|].
  cbn. etransitivity; [apply (promises_grow_step s op)|apply IH].
Qed.

(** The promise of a request once [onClose] has been called, with nothing but
    re-renders since the request. *)
Lemma completed (d : ShowModalParams) (k : nat) (result : option Value) (s : Host) :
  let q := eval (showModal d) s in
  let s' := exec (handleClose result) (renders k (exec (showModal d) s)) in
  promises s' !! q = Some (Follows (S q)) /\
  promises s' !! S q = Some (resolution (S q) (argument result)) /\
  promiseRef s' = None /\
  held s' = None /\
  renderModal s' = renderModal (renders k (exec (showModal d) s)) /\
  invoked s' = invoked s ++ [(ResolveOf (S q), argument result)].
Proof.
  cbn zeta.
  pose proof (requested d k s) as (Hq & _ & Href & Hcells & Hinv). cbn zeta in *.
  destruct (requested_cells (promises s) Pending) as [Hlock Hpend].
  rewrite <- Hq, <- Hcells in Hlock, Hpend.
  rewrite handleClose_unfold. cbn [promises promiseRef renderModal invoked].
  rewrite Href, Hinv. cbn [resolve handle].
  rewrite settle_pending by exact Hpend.
  split; [rewrite list_lookup_insert_ne by lia; exact Hlock|].
  split; [apply list_lookup_insert_eq; eapply lookup_lt_Some; eauto|].
  repeat split.
Qed.

Lemma observed_plain (s : Host) (q : PromiseId) (v : Value) :
  promises s !! q = Some (Follows (S q)) ->
  promises s !! S q = Some (resolution (S q) v) ->
  thenable v = false ->
  promise_state s q = SFulfilled v.
Proof.
  intros Hq Hp Hplain. rewrite (resolution_plain _ _ Hplain) in Hp.
  unfold promise_state.
  apply follow_locked_fulfilled with (p := S q); [assumption..|].
  apply lookup_lt_Some in Hp. lia.
Qed.

(** X2. A request completed before the provider renders again never gets its
    dialog on screen: [showModal] and [handleClose] leave the screen as it
    was, every later render shows no dialog, and the promise of the request
    is resolved with the result all the same (fulfilled with it when the
    result is not a thenable). *)
Theorem X2_closed_before_render_never_mounts
    (s : Host) (d : ShowModalParams) (result : option Value) (k : nat) :
  let q := eval (showModal d) s in
  let s1 := exec (handleClose result) (exec (showModal d) s) in
  rendered (exec (showModal d) s) = rendered s /\
  rendered s1 = rendered s /\
  rendered (renders (S k) s1) = None /\
  promises (renders (S k) s1) !! S q = Some (resolution (S q) (argument result)) /\
  (thenable (argument result) = false ->
   promise_state (renders (S k) s1) q = SFulfilled (argument result)).
Proof.
  intros q s1.
  pose proof (completed d 0 result s) as (Hq & Hp & _ & Hheld & Hrm & _).
  cbn zeta in *. change (renders 0 ?x) with x in *. fold q s1 in Hq, Hp, Hheld, Hrm.
  destruct (renders_keep (S k) s1) as (_ & Hcells & _ & Hh).
  split; [unfold rendered, AsyncModalProvider, exec; rewrite showModal_unfold; reflexivity|].
  split.
  { unfold rendered, AsyncModalProvider. cbn [dialog]. rewrite Hrm.
    unfold exec. rewrite showModal_unfold. reflexivity. }
  split.
  { unfold rendered, AsyncModalProvider. cbn [dialog].
    rewrite renders_S, renderModal_render.
    destruct (renders_keep k s1) as (_ & _ & _ & ->). rewrite Hheld. reflexivity. }
  split; [rewrite Hcells; exact Hp|].
  intros Hplain. apply observed_plain; [rewrite Hcells; assumption..|exact Hplain].
Qed.

(** *** The trace of callbacks and the promise cells *)

Lemma traced_initial : traced initial.
Proof.
  split; cbn.
  - intros cb v H. inversion H.
  - constructor.
Qed.

Lemma traced_showModal (params : ShowModalParams) (s : Host) :
  traced s -> traced (exec (showModal params) s).
Proof.
  intros [Hres Honce].
  unfold exec. rewrite showModal_unfold. cbn [snd].
  split; cbn [promises invoked].
  - intros cb v H. destruct (Hres cb v H) as (p & -> & Hp).
    exists p. split; [reflexivity|].
    rewrite lookup_app_l by (eapply lookup_lt_Some; eauto). exact Hp.
  - exact Honce.
Qed.

Lemma traced_handleClose (result : option Value) (s : Host) :
  consistent s -> traced s -> traced (exec (handleClose result) s).
Proof.
  intros [_ Hslot _] [Hres Honce].
  rewrite handleClose_unfold.
  destruct (promiseRef s) as [r|]; [|split; assumption].
  destruct (Hslot r eq_refl) as (p & -> & Hp). cbn [resolve handle].
  rewrite settle_pending by exact Hp.
  assert (Hlt : p < length (promises s)) by (eapply lookup_lt_Some; eauto).
  assert (Hfresh : forall v, (ResolveOf p, v) ∉ invoked s).
  { intros v Hin. destruct (Hres _ _ Hin) as (p0 & [= <-] & Hp0).
    rewrite Hp in Hp0. injection Hp0 as Hp0.
    exact (resolution_not_pending _ _ (eq_sym Hp0)). }
  split; cbn [promises invoked].
  - intros cb v H. apply elem_of_app in H as [H|H].
    + destruct (Hres cb v H) as (p0 & -> & Hp0). exists p0. split; [reflexivity|].
      destruct (decide (p0 = p)) as [->|Hne]; [destruct (Hfresh _ H)|].
      rewrite list_lookup_insert_ne by congruence. exact Hp0.
    + apply list_elem_of_singleton in H. injection H as -> ->.
      exists p. split; [reflexivity|]. apply list_lookup_insert_eq, Hlt.
  - rewrite fmap_app. apply NoDup_app. split; [exact Honce|]. split.
    + intros cb Hcb Hnew. apply list_elem_of_singleton in Hnew. subst cb.
      apply list_elem_of_fmap in Hcb as ([cb v] & Hfst & Hin). cbn in Hfst. subst cb.
      exact (Hfresh _ Hin).
    + apply NoDup_singleton.
Qed.

Lemma traced_step (s : Host) (op : Op) :
  consistent s -> traced s -> traced (step s op).
Proof.
  intros Hc Ht. destruct op as [params|result|]; cbn [step].
  - apply traced_showModal, Ht.
  - apply traced_handleClose; assumption.
  - destruct Ht as [Hres Honce]. split; assumption.
Qed.

Lemma traced_run (ops : list Op) (s : Host) :
  consistent s -> traced s -> traced (run ops s).
Proof.
  revert s. induction ops as [|op ops IH]; intros s Hc Ht; [exact Ht|].
  cbn. apply IH; [apply consistent_step, Hc|apply traced_step; assumption].
Qed.

Lemma traced_reachable (ops : list Op) : traced (run ops initial).
Proof. apply traced_run; [apply consistent_initial|apply traced_initial]. Qed.

Lemma requests_snoc (ops : list Op) (op : Op) :
  requests (ops ++ [op]) = requests ops + (if is_request op then 1 else 0).
Proof.
  unfold requests. rewrite List.filter_app, length_app. cbn.
  destruct (is_request op); reflexivity.
Qed.

Lemma completions_snoc (ops : list Op) (op : Op) :
  completions (ops ++ [op]) = completions ops + (if is_complete op then 1 else 0).
Proof.
  unfold completions. rewrite List.filter_app, length_app. cbn.
  destruct (is_complete op); reflexivity.
Qed.

(** X3. Whatever the history, no settlement callback is called twice: the
    provider drops the handle as soon as it has called its [resolve]. *)
Theorem X3_resolve_called_at_most_once (ops : list Op) :
  NoDup (fst <$> invoked (run ops initial)).
Proof. exact (traced_once _ (traced_reachable ops)). Qed.

Lemma invoked_step (s : Host) (op : Op) (c : Callback * Value) :
  c ∈ invoked s -> c ∈ invoked (step s op).
Proof.
  intros H. destruct op as [params|result|]; cbn [step].
  - unfold exec. rewrite showModal_unfold. exact H.
  - rewrite handleClose_unfold. cbn [invoked].
    destruct (promiseRef s); [apply elem_of_app; left|]; exact H.
  - exact H.
Qed.

Lemma progress_step (p : PromiseId) (s : Host) (op : Op) :
  consistent s ->
  awaiting p s \/ (exists v, resolved_with p v s) ->
  awaiting p (step s op) \/ (exists v, resolved_with p v (step s op)).
Proof.
  intros [_ Hslot _] [[Hp Hfresh]|[v [Hin Hp]]].
  - destruct op as [params|result|]; cbn [step].
    + left. unfold exec. rewrite showModal_unfold. split; cbn [snd promises invoked].
      * rewrite lookup_app_l by (eapply lookup_lt_Some; eauto). exact Hp.
      * exact Hfresh.
    + rewrite handleClose_unfold.
      destruct (promiseRef s) as [r|]; [|left; split; assumption].
      destruct (Hslot r eq_refl) as (p0 & -> & Hp0). cbn [resolve handle].
      rewrite settle_pending by exact Hp0.
      destruct (decide (p0 = p)) as [->|Hne].
      * right. exists (argument result). split; cbn [promises invoked].
        -- apply elem_of_app. right. apply list_elem_of_singleton. reflexivity.
        -- apply list_lookup_insert_eq. eapply lookup_lt_Some; eauto.
      * left. split; cbn [promises invoked].
        -- rewrite list_lookup_insert_ne by congruence. exact Hp.
        -- intros v Hin. apply elem_of_app in Hin as [Hin|Hin]; [exact (Hfresh _ Hin)|].
           apply list_elem_of_singleton in Hin. congruence.
    + left. split; assumption.
  - right. exists v. split; [apply invoked_step, Hin|].
    apply settled_cell_step; [apply resolution_not_pending|exact Hp].
Qed.

Lemma progress_run (p : PromiseId) (ops : list Op) (s : Host) :
  consistent s ->
  awaiting p s \/ (exists v, resolved_with p v s) ->
  awaiting p (run ops s) \/ (exists v, resolved_with p v (run ops s)).
Proof.
  revert s. induction ops as [|op ops IH]; intros s Hc H; [exact H|].
  cbn. apply IH; [apply consistent_step, Hc|apply progress_step; assumption].
Qed.

(** X4. The promise of a request and the calls of its [resolve] go
    together: either [resolve] has not been called and the promise is
    pending, or [resolve] has been called with some value and the promise is
    resolved with that value, fulfilled with it when it is not a
    thenable. *)
Theorem X4_resolved_iff_resolve_called
    (pre : list Op) (d : ShowModalParams) (post : list Op) :
  let s0 := run pre initial in
  let q := eval (showModal d) s0 in
  let s := run post (exec (showModal d) s0) in
  (awaiting (S q) s /\ promise_state s q = SPending) \/
  (exists v, resolved_with (S q) v s /\
             (thenable v = false -> promise_state s q = SFulfilled v)).
Proof.
  intros s0 q s.
  pose proof (requested d 0 s0) as (Hq & _ & _ & Hcells & Hinv).
  cbn zeta in *. change (renders 0 ?x) with x in *. fold q in Hq, Hcells.
  destruct (requested_cells (promises s0) Pending) as [Hlock Hpend].
  rewrite <- Hq, <- Hcells in Hlock, Hpend.
  apply (settled_cell_run _ _ post) in Hlock; [|discriminate]. fold s in Hlock.
  assert (Hstart : awaiting (S q) (exec (showModal d) s0)).
  { split; [exact Hpend|]. intros v Hin. rewrite Hinv in Hin.
    destruct (traced_resolved _ (traced_reachable pre) _ _ Hin) as (p & [= <-] & Hp).
    apply lookup_lt_Some in Hp. fold s0 in Hp. lia. }
  assert (Hc : consistent (exec (showModal d) s0)).
  { apply consistent_showModal, consistent_reachable. }
  destruct (progress_run (S q) post _ Hc (or_introl Hstart)) as [Haw|[v Hres]];
    fold s in Haw || fold s in Hres.
  - left. split; [exact Haw|]. destruct Haw as [Hp _].
    unfold promise_state. eapply follow_locked_pending; eauto.
  - right. exists v. split; [exact Hres|]. destruct Hres as [_ Hp].
    intros Hplain. apply observed_plain; assumption.
Qed.

(** X5. A history settles at most as many promises as it has completions,
    and at most as many as it has requests: each call of [onClose] calls at
    most one [resolve], and each [resolve] called was stored by a request of
    its own. *)
Theorem X5_settlements_bounded (ops : list Op) :
  let s := run ops initial in
  length (invoked s) <= completions ops /\
  length (invoked s) + slot_size s <= requests ops.
Proof.
  induction ops as [|op ops IH] using rev_ind; [cbn; lia|].
  cbn zeta in *. rewrite run_snoc, requests_snoc, completions_snoc.
  destruct IH as [IHc IHr].
  destruct op as [params|result|]; cbn [step is_request is_complete].
  - unfold exec. rewrite showModal_unfold. unfold slot_size in *. cbn.
    destruct (promiseRef (run ops initial)); lia.
  - rewrite handleClose_unfold. unfold slot_size in *. cbn.
    destruct (promiseRef (run ops initial)); [rewrite length_app; cbn|]; lia.
  - unfold slot_size in *. cbn. lia.
Qed.

(** X6. Every request returns a promise of its own: the promise returned by
    a later request was not allocated before that request, so it differs
    from the promise returned by any earlier request. *)
Theorem X6_requests_return_fresh_promises
    (s : Host) (d1 : ShowModalParams) (mid : list Op) (d2 : ShowModalParams) :
  let q1 := eval (showModal d1) s in
  let s1 := run mid (exec (showModal d1) s) in
  let q2 := eval (showModal d2) s1 in
  q1 < q2 /\ promises s1 !! q2 = None.
Proof.
  intros q1 s1 q2.
  pose proof (requested d1 0 s) as (Hq1 & _ & _ & Hcells & _).
  pose proof (requested d2 0 s1) as (Hq2 & _).
  cbn zeta in *. change (renders 0 ?x) with x in *. fold q1 in Hq1, Hcells. fold q2 in Hq2.
  pose proof (promises_grow_run mid (exec (showModal d1) s)) as Hgrow. fold s1 in Hgrow.
  rewrite Hcells, length_app in Hgrow. cbn in Hgrow.
  split; [lia|]. apply lookup_ge_None. lia.
Qed.

(** X7. Completion does not look at the descriptor: after [onClose] and the
    next render the provider is in the same state whatever dialog,
    [dismissible] flag and [data] the request had; in particular
    [dismissible: false] does not keep [onClose] from closing the dialog. *)
Theorem X7_completion_forgets_descriptor
    (s : Host) (d d' : ShowModalParams) (k : nat) (result : option Value) :
  render (exec (handleClose result) (renders k (exec (showModal d) s))) =
  render (exec (handleClose result) (renders k (exec (showModal d') s))).
Proof.
  pose proof (requested d k s) as (_ & _ & Href & Hcells & Hinv).
  pose proof (requested d' k s) as (_ & _ & Href' & Hcells' & Hinv').
  cbn zeta in *.
  assert (Hq : eval (showModal d) s = eval (showModal d') s).
  { unfold eval. rewrite !showModal_unfold. reflexivity. }
  rewrite !handleClose_unfold. unfold render.
  cbn [renderModal queued promiseRef promises invoked default].
  rewrite Href, Href', Hcells, Hcells', Hinv, Hinv', Hq. reflexivity.
Qed.

(** X8. [onClose] settles the latest request, not the request of the dialog
    that calls it: when a further request is issued while a dialog is on
    screen and that dialog calls [onClose] before the next render, the
    promise of the further request is resolved with the result for good
    (fulfilled with it when the result is not a thenable), the promise of
    the request whose dialog called stays pending for good, and the next
    render shows no dialog. *)
Theorem X8_stale_onClose_settles_newer_request
    (s : Host) (d1 d2 : ShowModalParams) (k : nat) (result : option Value)
    (post : list Op) :
  let q1 := eval (showModal d1) s in
  let s1 := renders (S k) (exec (showModal d1) s) in
  let q2 := eval (showModal d2) s1 in
  let s2 := exec (showModal d2) s1 in
  exists props,
    rendered s2 = Some (modal d1, props) /\
    promises (run post (exec (Props.onClose props result) s2)) !! S q2
      = Some (resolution (S q2) (argument result)) /\
    (thenable (argument result) = false ->
     promise_state (run post (exec (Props.onClose props result) s2)) q2
       = SFulfilled (argument result)) /\
    promise_state (run post (exec (Props.onClose props result) s2)) q1 = SPending /\
    rendered (render (exec (Props.onClose props result) s2)) = None.
Proof.
  intros q1 s1 q2 s2.
  pose proof (requested d1 (S k) s) as (Hq1 & _ & _ & Hcells1 & _).
  pose proof (requested d2 0 s1) as (Hq2 & _ & Href2 & Hcells2 & _).
  pose proof (completed d2 0 result s1) as (Hc2 & Hp2 & _ & Hheld3 & _).
  cbn zeta in *. change (renders 0 ?x) with x in *.
  fold q1 s1 in Hq1, Hcells1. fold s1 q2 s2 in Hq2, Href2, Hcells2, Hc2, Hp2, Hheld3.
  destruct (requested_cells (promises s) Pending) as [Hlock Hpend].
  rewrite <- Hq1, <- Hcells1 in Hlock, Hpend.
  assert (Hrm : renderModal s2 = Some d1).
  { unfold s2, exec. rewrite showModal_unfold. cbn [snd renderModal].
    unfold s1. rewrite renders_S, renderModal_render. apply (requested d1 k s). }
  eexists. split.
  { unfold rendered, AsyncModalProvider. cbn [dialog]. rewrite Hrm. reflexivity. }
  cbn [Props.onClose]. set (s3 := exec (handleClose result) s2) in *.
  assert (Hres : promises (run post s3) !! S q2
                 = Some (resolution (S q2) (argument result))).
  { apply settled_cell_run; [apply resolution_not_pending|exact Hp2]. }
  split; [exact Hres|]. split; [|split].
  - intros Hplain. apply observed_plain; [|exact Hres|exact Hplain].
    apply settled_cell_run; [discriminate|exact Hc2].
  - assert (Hlock2 : promises s2 !! q1 = Some (Follows (S q1))).
    { rewrite Hcells2, lookup_app_l by (eapply lookup_lt_Some; eauto). exact Hlock. }
    assert (Hab : abandoned (S q1) s2).
    { split.
      - rewrite Hcells2, lookup_app_l by (eapply lookup_lt_Some; eauto). exact Hpend.
      - intros r Hr. rewrite Href2 in Hr. injection Hr as <-. cbn [resolve handle].
        apply lookup_lt_Some in Hpend.
        split; [intros [= E]; lia|discriminate]. }
    change (run post s3) with (run (Complete result :: post) s2).
    apply (abandoned_run _ (Complete result :: post)) in Hab as [Hcell _].
    apply (settled_cell_run _ _ (Complete result :: post)) in Hlock2; [|discriminate].
    unfold promise_state. eapply follow_locked_pending; eauto.
  - unfold rendered, AsyncModalProvider. cbn [dialog].
    rewrite renderModal_render, Hheld3. reflexivity.
Qed.

(** X9. Whenever a descriptor is held, it is the descriptor of the latest
    request and nothing but re-renders has happened since; the handle of that
    request is the one in [promiseRef] and its promise is still pending. *)
Theorem X9_held_is_latest_request (ops : list Op) (d : ShowModalParams) :
  held (run ops initial) = Some d ->
  exists pre k,
    run ops initial = renders k (exec (showModal d) (run pre initial)) /\
    promiseRef (run ops initial)
      = Some (handle (S (eval (showModal d) (run pre initial)))) /\
    promise_state (run ops initial) (eval (showModal d) (run pre initial)) = SPending.
Proof.
  intros H. destruct (held_latest_request ops d H) as (pre & k & ->).
  exists pre, k. split; [reflexivity|].
  pose proof (requested d k (run pre initial)) as (Hq & _ & Href & Hcells & _).
  cbn zeta in *. split; [exact Href|].
  destruct (requested_cells (promises (run pre initial)) Pending) as [Hlock Hpend].
  rewrite <- Hq, <- Hcells in Hlock, Hpend.
  unfold promise_state. eapply follow_locked_pending; eauto.
Qed.

Lemma X9_held_is_latest_request_witness :
  held (run [Request stepOne; Render] initial) = Some stepOne /\
  exists pre k,
    run [Request stepOne; Render] initial
      = renders k (exec (showModal stepOne) (run pre initial)) /\
    promiseRef (run [Request stepOne; Render] initial)
      = Some (handle (S (eval (showModal stepOne) (run pre initial)))) /\
    promise_state (run [Request stepOne; Render] initial)
      (eval (showModal stepOne) (run pre initial)) = SPending.
Proof.
  split; [reflexivity|].
  apply (X9_held_is_latest_request [Request stepOne; Render] stepOne). reflexivity.
Defined.

(** X10. Only the promise whose handle is in [promiseRef] can still be
    settled: in a reachable state, a pending promise whose handle is not the
    one in [promiseRef] stays pending through every later history. *)
Theorem X10_only_the_slot_can_settle
    (ops : list Op) (p : PromiseId) (post : list Op) :
  promises (run ops initial) !! p = Some Pending ->
  promiseRef (run ops initial) ≠ Some (handle p) ->
  promises (run post (run ops initial)) !! p = Some Pending.
Proof.
  intros Hp Hslot.
  destruct (consistent_reachable ops) as [_ Hhandle _].
  apply (abandoned_run p post (run ops initial)).
  split; [exact Hp|].
  intros r Hr. destruct (Hhandle r Hr) as (p' & -> & _). cbn.
  split; [|discriminate]. intros [= ->]. exact (Hslot Hr).
Qed.

Lemma X10_only_the_slot_can_settle_witness :
  promises (run [Request stepOne; Request stepTwo] initial) !! 1 = Some Pending /\
  promiseRef (run [Request stepOne; Request stepTwo] initial) ≠ Some (handle 1) /\
  promises (run [Complete None; Request stepOne; Complete (Some VNull)]
              (run [Request stepOne; Request stepTwo] initial)) !! 1 = Some Pending.
Proof.
  split; [reflexivity|]. split; [discriminate|].
  apply (X10_only_the_slot_can_settle [Request stepOne; Request stepTwo] 1).
  - reflexivity.
  - discriminate.
Defined.

(** X11. What [onClose] does with a thenable result: while a descriptor is
    held, calling it with a thenable that rejects with [r] leaves the promise
    of the request rejected with [r]; with a thenable that never settles,
    pending; with a thenable that fulfils with a value [v] that is not itself
    a thenable, fulfilled with [v].  In none of these cases is a [reject]
    callback called. *)
Theorem X11_thenable_result_is_adopted
    (pre : list Op) (d : ShowModalParams) (k : nat) (r v : Value) :
  thenable v = false ->
  let s0 := run pre initial in
  let q := eval (showModal d) s0 in
  let s1 := renders k (exec (showModal d) s0) in
  promise_state (exec (handleClose (Some (VThenable (Rejects r)))) s1) q = SRejected r /\
  promise_state (exec (handleClose (Some (VThenable Never))) s1) q = SPending /\
  promise_state (exec (handleClose (Some (VThenable (Fulfils v)))) s1) q = SFulfilled v /\
  rejections (exec (handleClose (Some (VThenable (Rejects r)))) s1) = [].
Proof.
  intros Hplain s0 q s1.
  pose proof (requested d k s0) as (Hq & _ & Href & Hcells & Hinv).
  cbn zeta in *. fold q s1 in Hq, Href, Hcells, Hinv.
  destruct (requested_cells (promises s0) Pending) as [Hlock Hpend].
  rewrite <- Hq, <- Hcells in Hlock, Hpend.
  assert (Hlt : S q < length (promises s1)) by (eapply lookup_lt_Some; eauto).
  assert (Hclose : forall x c,
             resolution (S q) x = c -> (forall p', c ≠ Follows p') ->
             promise_state (exec (handleClose (Some x)) s1) q
             = match c with
               | Fulfilled w => SFulfilled w
               | Rejected w => SRejected w
               | _ => SPending
               end).
  { intros x c Hx Hc. unfold promise_state. rewrite handleClose_unfold. cbn [promises].
    rewrite Href. cbn [resolve handle]. change (argument (Some x)) with x.
    rewrite settle_pending by exact Hpend. rewrite length_insert, Hx.
    apply follow_locked_cell with (p := S q).
    - rewrite list_lookup_insert_ne by lia. exact Hlock.
    - apply list_lookup_insert_eq, Hlt.
    - exact Hc.
    - lia. }
  split; [|split; [|split]].
  - apply (Hclose (VThenable (Rejects r)) (Rejected r)); [reflexivity|discriminate].
  - apply (Hclose (VThenable Never) Stalled); [reflexivity|discriminate].
  - apply (Hclose (VThenable (Fulfils v)) (Fulfilled v)); [|discriminate].
    cbn [resolution]. apply resolution_plain, Hplain.
  - unfold rejections. rewrite handleClose_unfold. cbn [invoked]. rewrite Href.
    cbn [resolve handle]. rewrite List.filter_app. cbn. rewrite app_nil_r.
    destruct (consistent_reachable pre) as [_ _ Honly]. fold s0 in Honly.
    rewrite Hinv.
    cut (Forall (fun c => is_reject c.1 = false) (invoked s0)).
    { generalize (invoked s0). intros l Hl.
      induction Hl as [|c l Hc _ IH]; cbn; [reflexivity|]. rewrite Hc. exact IH. }
    apply Forall_forall. intros [cb w] Hin.
    destruct (Honly cb w Hin) as [p' ->]. reflexivity.
Qed.

Lemma X11_thenable_result_is_adopted_witness :
  thenable VNull = false /\
  promise_state
    (exec (handleClose (Some (VThenable (Rejects (VStr "declined")))))
       (renders 1 (exec (showModal stepTwo) (run [Request stepOne] initial))))
    (eval (showModal stepTwo) (run [Request stepOne] initial))
    = SRejected (VStr "declined") /\
  promise_state
    (exec (handleClose (Some (VThenable Never)))
       (renders 1 (exec (showModal stepTwo) (run [Request stepOne] initial))))
    (eval (showModal stepTwo) (run [Request stepOne] initial)) = SPending /\
  promise_state
    (exec (handleClose (Some (VThenable (Fulfils VNull))))
       (renders 1 (exec (showModal stepTwo) (run [Request stepOne] initial))))
    (eval (showModal stepTwo) (run [Request stepOne] initial)) = SFulfilled VNull /\
  rejections
    (exec (handleClose (Some (VThenable (Rejects (VStr "declined")))))
       (renders 1 (exec (showModal stepTwo) (run [Request stepOne] initial)))) = [].
Proof.
  split; [reflexivity|].
  apply (X11_thenable_result_is_adopted [Request stepOne] stepTwo 1 (VStr "declined") VNull).
  reflexivity.
Defined.
